(** * Poseidon2 internal diffusion layer over Mersenne-31

    A shallow embedding of [mersenne-31/src/poseidon2.rs]: the shift tables,
    the delayed-reduction diffusion [permute_mut], the generic
    [internal_linear_layer] over a ring, the internal layer binding and the
    default round-constant tables, with proofs of their properties.

    Field values are integers (the [value] field of [Mersenne31]); [u64]
    arithmetic is checked the way a debug build checks it, so an overflow, a
    failed [debug_assert] or an out-of-range index is a [Panic]. *)

From Stdlib Require Import ZArith List Lia Bool Setoid Morphisms.
From Stdlib Require Zmod.ZmodInv.
Import ListNotations.
Open Scope Z_scope.

(** ** The field *)

(** [Mersenne31::ORDER_U32] *)
Definition P : Z := 2 ^ 31 - 1.

(** A [Mersenne31] is represented by its [value] field. *)
Abbreviation Mersenne31 := Z (only parsing).

Definition canonical (x : Mersenne31) : Prop := 0 <= x < P.

(** Modelled from the spec: the base-field arithmetic of [Mersenne31]
    (p3_field, not in src/): "an integer in [0, p) with p = 2^31 - 1, closed
    under addition, negation, and multiplication performed modulo p. Negation
    of 0 is 0; all other values map to p - value." *)
Module M31.
Definition add (a b : Mersenne31) : Mersenne31 := (a + b) mod P.
Definition sub (a b : Mersenne31) : Mersenne31 := (a - b) mod P.
Definition neg (a : Mersenne31) : Mersenne31 := if a =? 0 then 0 else P - a.
Definition mul (a b : Mersenne31) : Mersenne31 := (a * b) mod P.
Definition double (a : Mersenne31) : Mersenne31 := add a a.
Definition mul_2exp_u64 (a : Mersenne31) (k : Z) : Mersenne31 := (a * 2 ^ k) mod P.
Definition exp_u64 (a : Mersenne31) (e : Z) : Mersenne31 := (a ^ e) mod P.
End M31.

(** ** Panics and checked [u64] arithmetic *)

Inductive Panic : Type :=
| DebugAssertEqFailed   (* debug_assert_eq!(shifts.len() + 1, N) *)
| IndexOutOfBounds      (* slice or array index out of range *)
| AddOverflow           (* u64 addition overflow *)
| ShlOverflow           (* u64 shift by 64 or more *)
| FromU62Precondition.  (* argument of from_u62 not below 2^62 *)

Inductive Result (A : Type) : Type :=
| Ok (a : A)
| Err (e : Panic).
Arguments Ok {A} a.
Arguments Err {A} e.

Definition bind {A B} (m : Result A) (f : A -> Result B) : Result B :=
  match m with
  | Ok a => f a
  | Err e => Err e
  end.

Notation "x <- m ;; f" := (bind m (fun x => f))
  (at level 61, m at next level, right associativity).

Definition U64_MAX : Z := 2 ^ 64 - 1.

(** [a + b] on [u64] *)
Definition u64_add (a b : Z) : Result Z :=
  if a + b <=? U64_MAX then Ok (a + b) else Err AddOverflow.

(** [a << s] on [u64]: the shift amount is checked, bits shifted out are lost. *)
Definition u64_shl (a s : Z) : Result Z :=
  if s <? 64 then Ok (Z.land (Z.shiftl a s) (Z.ones 64)) else Err ShlOverflow.

(** [Iterator::sum] on [u64]: [fold(0, |a, b| a + b)]. *)
Fixpoint u64_sum_from (acc : Z) (xs : list Z) : Result Z :=
  match xs with
  | [] => Ok acc
  | x :: rest => acc' <- u64_add acc x ;; u64_sum_from acc' rest
  end.

Definition u64_sum (xs : list Z) : Result Z := u64_sum_from 0 xs.

(** ** Arrays *)

(** [a[i]] *)
Definition index (a : list Z) (i : nat) : Result Z :=
  match nth_error a i with
  | Some x => Ok x
  | None => Err IndexOutOfBounds
  end.

(** [&a[i..]] *)
Definition slice_from (a : list Z) (i : nat) : Result (list Z) :=
  if (i <=? length a)%nat then Ok (skipn i a) else Err IndexOutOfBounds.

Fixpoint set_nth (a : list Z) (i : nat) (v : Z) : list Z :=
  match a, i with
  | [], _ => []
  | _ :: rest, O => v :: rest
  | x :: rest, S j => x :: set_nth rest j v
  end.

(** [a[i] = v] *)
Definition assign (a : list Z) (i : nat) (v : Z) : Result (list Z) :=
  if (i <? length a)%nat then Ok (set_nth a i v) else Err IndexOutOfBounds.

(** [for i in start..start + n { body }] threading the array. *)
Fixpoint for_range (start n : nat) (body : nat -> list Z -> Result (list Z))
  (a : list Z) : Result (list Z) :=
  match n with
  | O => Ok a
  | S n' => a' <- body start a ;; for_range (S start) n' body a'
  end.

(** ** The delayed-reduction diffusion *)

(** Modelled from the spec: [from_u62] (crate root, not in src/): "given a
    non-negative integer known to fit in 62 bits, returns its unique canonical
    representative in [0, p)". A call outside that precondition fails. *)
Definition from_u62 (x : Z) : Result Mersenne31 :=
  if (0 <=? x) && (x <? 2 ^ 62) then Ok (x mod P) else Err FromU62Precondition.

Definition POSEIDON2_INTERNAL_MATRIX_DIAG_16_SHIFTS : list Z :=
  [0; 1; 2; 3; 4; 5; 6; 7; 8; 10; 12; 13; 14; 15; 16].

Definition POSEIDON2_INTERNAL_MATRIX_DIAG_24_SHIFTS : list Z :=
  [0; 1; 2; 3; 4; 5; 6; 7; 8; 9; 10; 11; 12; 13; 14; 15; 16; 17; 18; 19; 20;
   21; 22].

(** One iteration of the loop of [permute_mut]:
    [state[i] = from_u62(full_sum + ((state[i].value as u64) << shifts[i - 1]))]. *)
Definition permute_mut_step (full_sum : Z) (shifts : list Z) (i : nat)
  (state : list Z) : Result (list Z) :=
  xi <- index state i ;;
  sh <- index shifts (i - 1) ;;
  t <- u64_shl xi sh ;;
  si <- u64_add full_sum t ;;
  vi <- from_u62 si ;;
  assign state i vi.

(** [fn permute_mut<const N: usize>(state: &mut [Mersenne31; N], shifts: &[u8])],
    returning the final contents of [state]. *)
Definition permute_mut (state : list Mersenne31) (shifts : list Z)
  : Result (list Mersenne31) :=
  let N := length state in
  if negb (Nat.eqb (length shifts + 1) N) then Err DebugAssertEqFailed else
  tail <- slice_from state 1 ;;
  part_sum <- u64_sum tail ;;
  x0 <- index state 0 ;;
  full_sum <- u64_add part_sum x0 ;;
  s0 <- u64_add part_sum (M31.neg x0) ;;
  v0 <- from_u62 s0 ;;
  state <- assign state 0 v0 ;;
  for_range 1 (N - 1) (permute_mut_step full_sum shifts) state.

(** ** The generic diffusion over a ring *)

(** The operations of [PrimeCharacteristicRing] that
    [internal_linear_layer] uses. *)
Class PrimeCharacteristicRing (R : Type) := {
  r_zero : R;
  r_add : R -> R -> R;
  r_sub : R -> R -> R;
  r_double : R -> R;
  r_mul_2exp_u64 : R -> Z -> R
}.

(** [Sum] for a ring: ring addition folded from zero. *)
Definition r_sum {R} `{PrimeCharacteristicRing R} (xs : list R) : R :=
  fold_left r_add xs r_zero.

#[export] Instance Mersenne31_ring : PrimeCharacteristicRing Mersenne31 := {
  r_zero := 0;
  r_add := M31.add;
  r_sub := M31.sub;
  r_double := M31.double;
  r_mul_2exp_u64 := M31.mul_2exp_u64
}.

(** [vals.iter_mut().zip(shifts).skip(skip).for_each(|(val, s)| *val = f(val, s))] *)
Fixpoint zip_skip_update {R} (f : R -> Z -> R) (skip : nat) (vals : list R)
  (shifts : list Z) : list R :=
  match vals, shifts with
  | v :: vs, s :: ss =>
      match skip with
      | O => f v s
      | S _ => v
      end :: zip_skip_update f (Nat.pred skip) vs ss
  | _, _ => vals
  end.

(** [GenericPoseidon2LinearLayersMersenne31::internal_linear_layer], whose two
    impls (widths 16 and 24) differ only in the shift table they zip with. The
    arrays have 16 or 24 entries, so the fall-through branch is never taken. *)
Definition internal_linear_layer {R} `{PrimeCharacteristicRing R}
  (shifts : list Z) (state : list R) : list R :=
  match state with
  | s0 :: ((s1 :: s2 :: rest) as tail) =>
      let part_sum := r_sum tail in
      let full_sum := r_add part_sum s0 in
      r_sub part_sum s0
        :: zip_skip_update (fun v s => r_add full_sum (r_mul_2exp_u64 v s)) 2
             (r_add full_sum s1 :: r_add full_sum (r_double s2) :: rest) shifts
  | _ => state
  end.

Definition internal_linear_layer_16 {R} `{PrimeCharacteristicRing R}
  (state : list R) : list R :=
  internal_linear_layer POSEIDON2_INTERNAL_MATRIX_DIAG_16_SHIFTS state.

Definition internal_linear_layer_24 {R} `{PrimeCharacteristicRing R}
  (state : list R) : list R :=
  internal_linear_layer POSEIDON2_INTERNAL_MATRIX_DIAG_24_SHIFTS state.

(** ** The matrix the diffusion multiplies by *)

Definition z_sum (xs : list Z) : Z := fold_right Z.add 0 xs.

(** V = [-2, 2^shifts[0], 2^shifts[1], ...] *)
Definition diag_V (shifts : list Z) : list Z := -2 :: map (fun s => 2 ^ s) shifts.

(** Entry (i, j) of the matrix "1 + Diag(V)" of the source's doc comment: the
    all-ones matrix plus the diagonal V. *)
Definition internal_matrix (V : list Z) (i j : nat) : Z :=
  1 + (if Nat.eqb i j then nth i V 0 else 0).

(** The matrix-vector product, reduced modulo p. *)
Definition mat_vec_mod (M : nat -> nat -> Z) (x : list Z) : list Z :=
  map (fun i => z_sum (map (fun j => M i j * nth j x 0) (seq 0 (length x))) mod P)
    (seq 0 (length x)).

(** The same product written per entry: new state[0] = sum - 2 * state[0] and
    new state[i] = sum + 2^shifts[i-1] * state[i], modulo p. *)
Definition diffusion_formula (state shifts : list Z) : list Z :=
  match state with
  | [] => []
  | x0 :: xs =>
      (z_sum state - 2 * x0) mod P
        :: map (fun xs_ => (z_sum state + 2 ^ snd xs_ * fst xs_) mod P)
             (combine xs shifts)
  end.

(** Elementwise [a * x + b * y] over the field. *)
Definition lincomb (a : Mersenne31) (x : list Mersenne31) (b : Mersenne31)
  (y : list Mersenne31) : list Mersenne31 :=
  map (fun uv => M31.add (M31.mul a (fst uv)) (M31.mul b (snd uv))) (combine x y).

(** ** The S-box, the round constants and the default instances *)

(** [MERSENNE31_S_BOX_DEGREE] *)
Definition MERSENNE31_S_BOX_DEGREE : Z := 5.

(** x |-> x^D on a field element. *)
Definition sbox (x : Mersenne31) : Mersenne31 := M31.exp_u64 x MERSENNE31_S_BOX_DEGREE.

Definition MERSENNE31_RC16_EXTERNAL_INITIAL : list (list Z) := [
  [0x768bab52; 0x70e0ab7d; 0x3d266c8a; 0x6da42045; 0x600fef22; 0x41dace6b;
   0x64f9bdd4; 0x5d42d4fe; 0x76b1516d; 0x6fc9a717; 0x70ac4fb6; 0x00194ef6;
   0x22b644e2; 0x1f7916d5; 0x47581be2; 0x2710a123];
  [0x6284e867; 0x018d3afe; 0x5df99ef3; 0x4c1e467b; 0x566f6abc; 0x2994e427;
   0x538a6d42; 0x5d7bf2cf; 0x7fda2dab; 0x0fd854c4; 0x46922fca; 0x3d7763a1;
   0x19fd05ca; 0x0a4bbb43; 0x15075851; 0x3d903d76];
  [0x2d290ff7; 0x40809fa0; 0x59dac6ec; 0x127927a2; 0x6bbf0ea0; 0x0294140f;
   0x24742976; 0x6e84c081; 0x22484f4a; 0x354cae59; 0x0453ffe1; 0x3f47a3cc;
   0x0088204e; 0x6066e109; 0x3b7c4b80; 0x6b55665d];
  [0x3bc4b897; 0x735bf378; 0x508daf42; 0x1884fc2b; 0x7214f24c; 0x7498be0a;
   0x1a60e640; 0x3303f928; 0x29b46376; 0x5c96bb68; 0x65d097a5; 0x1d358e9f;
   0x4a9a9017; 0x4724cf76; 0x347af70f; 0x1e77e59a]].

Definition MERSENNE31_RC16_EXTERNAL_FINAL : list (list Z) := [
  [0x57090613; 0x1fa42108; 0x17bbef50; 0x1ff7e11c; 0x047b24ca; 0x4e140275;
   0x4fa086f5; 0x079b309c; 0x1159bd47; 0x6d37e4e5; 0x075d8dce; 0x12121ca0;
   0x7f6a7c40; 0x68e182ba; 0x5493201b; 0x0444a80e];
  [0x0064f4c6; 0x6467abe6; 0x66975762; 0x2af68f9b; 0x345b33be; 0x1b70d47f;
   0x053db717; 0x381189cb; 0x43b915f8; 0x20df3694; 0x0f459d26; 0x77a0e97b;
   0x2f73e739; 0x1876c2f9; 0x65a0e29a; 0x4cabefbe];
  [0x5abd1268; 0x4d34a760; 0x12771799; 0x69a0c9ac; 0x39091e55; 0x7f611cd0;
   0x3af055da; 0x7ac0bbdf; 0x6e0f3a24; 0x41e3b6f7; 0x49b3756d; 0x568bc538;
   0x20c079d8; 0x1701c72c; 0x7670dc6c; 0x5a439035];
  [0x7c93e00e; 0x561fbb4d; 0x1178907b; 0x02737406; 0x32fb24f1; 0x6323b60a;
   0x6ab12418; 0x42c99cea; 0x155a0b97; 0x53d1c6aa; 0x2bd20347; 0x279b3d73;
   0x4f5f3c70; 0x0245af6c; 0x238359d3; 0x49966a59]].

Definition MERSENNE31_RC16_INTERNAL : list Z := [
  0x7f7ec4bf; 0x0421926f; 0x5198e669; 0x34db3148; 0x4368bafd; 0x66685c7f;
  0x78d3249a; 0x60187881; 0x76dad67a; 0x0690b437; 0x1ea95311; 0x40e5369a;
  0x38f103fc].

Definition MERSENNE31_RC24_EXTERNAL_INITIAL : list (list Z) := [
  [0x1feaba61; 0x53224454; 0x6bceb9e2; 0x5019f9b4; 0x48726592; 0x2b22d0a8;
   0x6151bbf9; 0x2f474b21; 0x2eb5f337; 0x3b645d87; 0x0942cef0; 0x65228c52;
   0x78ffb30f; 0x4d2837c8; 0x0e17ac4f; 0x05546686; 0x046c06cc; 0x0b51c3b6;
   0x568db763; 0x38b334e4; 0x57f5acf0; 0x19d32611; 0x77d02f4b; 0x6c82e9b8];
  [0x7148c1b6; 0x08067c75; 0x46d1e8c9; 0x30973b07; 0x20614f3b; 0x5c3ff851;
   0x30503329; 0x4972e7cc; 0x02d1d8bc; 0x09d5bfa6; 0x097104c0; 0x7ba49a34;
   0x4a07c2fc; 0x24c1ee69; 0x28a6ab41; 0x5d9108a0; 0x3a7851c7; 0x1dd495f9;
   0x12b49ff4; 0x7bad5760; 0x5fed64c2; 0x66f5c96c; 0x7eafbd02; 0x39b3593b];
  [0x4a653b49; 0x75091dc1; 0x56e488e0; 0x1704a355; 0x745e4ff3; 0x392ef16e;
   0x31e33fdf; 0x02c28c66; 0x36c3083a; 0x3104d1fa; 0x5b03cda3; 0x6641e1af;
   0x37754b56; 0x396f5af9; 0x1a1a461a; 0x688e26f2; 0x6f829784; 0x1bb91d69;
   0x5b788016; 0x704aa5c5; 0x0181869c; 0x41211e56; 0x0ce803a0; 0x23bff3a0];
  [0x17fb7064; 0x47317220; 0x76914b53; 0x219c1905; 0x16655528; 0x4df35544;
   0x60808465; 0x3350f833; 0x03bccdc7; 0x0a87180a; 0x017a99f5; 0x6e945726;
   0x15445504; 0x780533b1; 0x3b91bf38; 0x3fc77eb1; 0x4b4d960e; 0x3cd93d2e;
   0x0ea4e976; 0x1d5306cc; 0x3a7ac284; 0x0ec22934; 0x4d979713; 0x51a41c65]].

Definition MERSENNE31_RC24_EXTERNAL_FINAL : list (list Z) := [
  [0x1c662299; 0x057c955a; 0x7ab6c0f2; 0x25a6ad0a; 0x75850b58; 0x48fd3793;
   0x0b4366b1; 0x0fdd0d49; 0x7db419f9; 0x49b9cc0f; 0x48949716; 0x29c35890;
   0x76445485; 0x1c27d30c; 0x10aa7a3b; 0x30f34fb6; 0x6fe06435; 0x02135ecd;
   0x6caaba96; 0x3eb290d0; 0x22fd8d3b; 0x768b1525; 0x5be95814; 0x523d7fe9];
  [0x55e94cec; 0x47c42e1f; 0x1aa53b5e; 0x2fd1fe7e; 0x59230e91; 0x7472da66;
   0x6443f2df; 0x2d9de19d; 0x6f7f6a84; 0x77800430; 0x0f014bc8; 0x7bf3d095;
   0x26afd318; 0x582561f7; 0x5ee3198c; 0x6acc0000; 0x2f315e26; 0x27cac040;
   0x2595081e; 0x5963b7da; 0x7e073565; 0x6cf3f5f1; 0x09f8a3a4; 0x0da8ccfe];
  [0x60be2365; 0x7ed742f5; 0x668b8031; 0x4bb03494; 0x59019333; 0x700e2878;
   0x1cc45856; 0x1d1617f7; 0x7b988da6; 0x4eb4936c; 0x78c9f87e; 0x63ce3e94;
   0x7178341b; 0x45bc2f86; 0x05b775bc; 0x704b0244; 0x29eed278; 0x47f43032;
   0x2127b2e5; 0x1997903f; 0x24b3ce03; 0x0c32298c; 0x7d2b6f3a; 0x17fcaa81];
  [0x72f37fef; 0x3028e7a9; 0x5edd4d96; 0x1f96583b; 0x4cd6918a; 0x14880f0e;
   0x69170359; 0x173cbd33; 0x0969e7f4; 0x6e7f23ab; 0x6182ea87; 0x4dcb1f5c;
   0x585fa113; 0x729cb3b6; 0x01b3a27a; 0x1ba173e7; 0x4b33bcea; 0x63d93bbb;
   0x6b3fbf99; 0x6f17e9d1; 0x0c3dd8ba; 0x0bc1f9a8; 0x64d3f370; 0x465a6a18]].

Definition MERSENNE31_RC24_INTERNAL : list Z := [
  0x22776a11; 0x5fa34268; 0x1415528d; 0x563fbd14; 0x34f45244; 0x120ea1b6;
  0x261368a5; 0x27665ec1; 0x36be2805; 0x345c4784; 0x17efdcc1; 0x393e6530;
  0x6da0b4b8; 0x31e5ded3; 0x675b27ac; 0x0ae88c30; 0x577841cc; 0x5fe06dec;
  0x56b0691a; 0x7242de1f; 0x3c377529].

Record ExternalLayerConstants := {
  initial_constants : list (list Mersenne31);
  terminal_constants : list (list Mersenne31)
}.

Record Poseidon2InternalLayerMersenne31 := {
  internal_constants : list Mersenne31
}.

Record Poseidon2Mersenne31 := {
  external_layer : ExternalLayerConstants;
  internal_layer : Poseidon2InternalLayerMersenne31
}.

(** Modelled from the spec: [Poseidon2::new] (p3_poseidon2, not in src/)
    bundles the external constant tables and the internal constant table into
    one instance. *)
Definition Poseidon2_new (ext : ExternalLayerConstants)
  (internal : list Mersenne31) : Poseidon2Mersenne31 :=
  {| external_layer := ext;
     internal_layer := {| internal_constants := internal |} |}.

Definition default_mersenne31_poseidon2_16 : Poseidon2Mersenne31 :=
  Poseidon2_new
    {| initial_constants := MERSENNE31_RC16_EXTERNAL_INITIAL;
       terminal_constants := MERSENNE31_RC16_EXTERNAL_FINAL |}
    MERSENNE31_RC16_INTERNAL.

Definition default_mersenne31_poseidon2_24 : Poseidon2Mersenne31 :=
  Poseidon2_new
    {| initial_constants := MERSENNE31_RC24_EXTERNAL_INITIAL;
       terminal_constants := MERSENNE31_RC24_EXTERNAL_FINAL |}
    MERSENNE31_RC24_INTERNAL.

(** Modelled from the spec: [internal_permute_state] (p3_poseidon2, not in
    src/): "apply one scalar round constant to element 0 only, apply the
    nonlinear substitution (fifth-power map) to element 0 only, then apply
    4.1. This triple is repeated once per entry in the internal round-constant
    table". Besides the final state it returns the constants of the rounds it
    ran, in order. *)
Fixpoint internal_permute_state (state : list Mersenne31)
  (mat_mul : list Mersenne31 -> Result (list Mersenne31))
  (consts : list Mersenne31) : Result (list Mersenne31 * list Mersenne31) :=
  match consts with
  | [] => Ok (state, [])
  | rc :: rest =>
      x0 <- index state 0 ;;
      state <- assign state 0 (sbox (M31.add x0 rc)) ;;
      state <- mat_mul state ;;
      r <- internal_permute_state state mat_mul rest ;;
      Ok (fst r, rc :: snd r)
  end.

(** [InternalLayer<Mersenne31, 16, _>::permute_state] *)
Definition permute_state_16 (self : Poseidon2InternalLayerMersenne31)
  (state : list Mersenne31) : Result (list Mersenne31 * list Mersenne31) :=
  internal_permute_state state
    (fun x => permute_mut x POSEIDON2_INTERNAL_MATRIX_DIAG_16_SHIFTS)
    self.(internal_constants).

(** [InternalLayer<Mersenne31, 24, _>::permute_state] *)
Definition permute_state_24 (self : Poseidon2InternalLayerMersenne31)
  (state : list Mersenne31) : Result (list Mersenne31 * list Mersenne31) :=
  internal_permute_state state
    (fun x => permute_mut x POSEIDON2_INTERNAL_MATRIX_DIAG_24_SHIFTS)
    self.(internal_constants).

(** ** Bounds and auxiliary definitions for the proofs *)

Definition value_bound (x : Z) : Prop := 0 <= x < 2 ^ 31.

Definition shift_bound (s : Z) : Prop := 0 <= s <= 30.

(** The formula with the sum of the state given separately. *)
Definition diffusion_rows (total : Z) (state shifts : list Z) : list Z :=
  match state with
  | [] => []
  | x0 :: xs =>
      (total - 2 * x0) mod P
        :: map (fun xs_ => (total + 2 ^ snd xs_ * fst xs_) mod P) (combine xs shifts)
  end.

(** Trial division: no [e] in [[d, d + n)] divides [p]. *)
Fixpoint no_divisor_from (p d : Z) (n : nat) : bool :=
  match n with
  | O => true
  | S n' => negb (p mod d =? 0) && no_divisor_from p (d + 1) n'
  end.

(** 5 * 1717986917 = 4 * (p - 1) + 1 *)
Definition sbox_inv_exponent : Z := 1717986917.

(** The intermediate values [permute_mut] computes, as exact integers:
    [part_sum], [full_sum], [s0] and each
    [full_sum + ((state[i].value as u64) << shifts[i - 1])]. *)
Definition permute_mut_intermediates (state shifts : list Z) : list Z :=
  match state with
  | [] => []
  | x0 :: xs =>
      let part_sum := z_sum xs in
      let full_sum := part_sum + x0 in
      part_sum :: full_sum :: part_sum + M31.neg x0
        :: map (fun xs_ => full_sum + fst xs_ * 2 ^ snd xs_) (combine xs shifts)
  end.

(** The inputs of [test_poseidon2_width_16_random] and
    [test_poseidon2_width_24_random]. *)
Definition test_input_16 : list Mersenne31 :=
  [894848333; 1437655012; 1200606629; 1690012884; 71131202; 1749206695;
   1717947831; 120589055; 19776022; 42382981; 1831865506; 724844064;
   171220207; 1299207443; 227047920; 1783754913].

Definition test_input_24 : list Mersenne31 :=
  [886409618; 1327899896; 1902407911; 591953491; 648428576; 1844789031;
   1198336108; 355597330; 1799586834; 59617783; 790334801; 1968791836;
   559272107; 31054313; 1042221543; 474748436; 135686258; 263665994;
   1962340735; 1741539604; 2026927696; 449439011; 1131357108; 50869465].

(** 2^31 * (1 + sum of 1 / V[i]) for V = [-2, 2^shifts[0], ...], written
    without division: 2^31 - 2^30 + sum of 2^(31 - shifts[i]). Up to the unit
    factor 2^31 * prod V[i], this is the determinant of 1 + Diag(V); the matrix
    is invertible modulo p exactly when p does not divide it. *)
Definition det_factor (shifts : list Z) : Z :=
  2 ^ 31 - 2 ^ 30 + z_sum (map (fun s => 2 ^ (31 - s)) shifts).

(** The integers, with [mul_2exp_u64] as a left shift: a ring in which to
    evaluate the generic layer without reduction. *)
Definition Z_ring : PrimeCharacteristicRing Z := {|
  r_zero := 0;
  r_add := Z.add;
  r_sub := Z.sub;
  r_double := fun x => 2 * x;
  r_mul_2exp_u64 := Z.shiftl
|}.

(** * Proofs *)

(** ** Arithmetic modulo p *)

Lemma canonical_value_bound x : canonical x -> value_bound x.
Proof. unfold canonical, value_bound, P. lia. Qed.

Lemma P_pos : 0 < P.
Proof. unfold P. lia. Qed.

Lemma mod_P_canonical x : canonical (x mod P).
Proof. unfold canonical. apply Z.mod_pos_bound, P_pos. Qed.

Lemma neg_eqm x : eqm P (M31.neg x) (- x).
Proof.
  unfold eqm, M31.neg. destruct (Z.eqb_spec x 0) as [->|_]; [reflexivity|].
  replace (P - x) with (- x + 1 * P) by ring. apply Z.mod_add. unfold P; lia.
Qed.

Lemma neg_bound x : value_bound x -> value_bound (M31.neg x).
Proof.
  unfold value_bound, M31.neg, P. destruct (Z.eqb_spec x 0); lia.
Qed.

#[local] Existing Instances eqm_setoid Zplus_eqm Zminus_eqm Zmult_eqm Zopp_eqm.

(** Turn [A mod P = B mod P] into a congruence and drop the inner
    reductions. *)
Ltac mod_congr :=
  match goal with
  | |- ?a mod P = ?b mod P => change (eqm P a b)
  end;
  repeat rewrite (Zmod_eqm P);
  repeat match goal with |- context [M31.neg ?x] => rewrite (neg_eqm x) end;
  unfold eqm; f_equal; ring.

Lemma z_sum_bound xs :
  Forall value_bound xs ->
  0 <= z_sum xs <= Z.of_nat (length xs) * (2 ^ 31 - 1).
Proof.
  induction 1 as [|x xs Hx _ IH]; simpl; [lia|].
  unfold value_bound in Hx. lia.
Qed.

(** ** Checked [u64] steps that do not fail *)

Lemma u64_add_ok a b : 0 <= a -> 0 <= b -> a + b <= U64_MAX -> u64_add a b = Ok (a + b).
Proof.
  intros. unfold u64_add. destruct (Z.leb_spec (a + b) U64_MAX); [reflexivity|lia].
Qed.

Lemma u64_sum_from_ok xs acc :
  Forall (fun x => 0 <= x) xs -> 0 <= acc -> acc + z_sum xs <= U64_MAX ->
  u64_sum_from acc xs = Ok (acc + z_sum xs).
Proof.
  intros Hxs. revert acc.
  induction Hxs as [|x xs Hx Hxs IH]; intros acc Hacc Hle; simpl.
  - f_equal. ring.
  - assert (0 <= z_sum xs).
    { clear IH Hle. induction Hxs; simpl; lia. }
    rewrite u64_add_ok by (simpl in Hle; lia). simpl.
    rewrite IH by (simpl in Hle; lia). f_equal. ring.
Qed.

Lemma u64_shl_ok a s :
  0 <= a -> 0 <= s < 64 -> a * 2 ^ s <= U64_MAX -> u64_shl a s = Ok (a * 2 ^ s).
Proof.
  intros Ha Hs Hle. unfold u64_shl.
  destruct (Z.ltb_spec s 64); [|lia]. f_equal.
  rewrite Z.shiftl_mul_pow2 by lia. rewrite Z.land_ones by lia.
  apply Z.mod_small. unfold U64_MAX in Hle.
  split; [apply Z.mul_nonneg_nonneg; [lia | apply Z.pow_nonneg; lia] | lia].
Qed.

Lemma from_u62_ok x : 0 <= x < 2 ^ 62 -> from_u62 x = Ok (x mod P).
Proof.
  intros [H1 H2]. unfold from_u62.
  apply Z.leb_le in H1. apply Z.ltb_lt in H2. rewrite H1, H2. reflexivity.
Qed.

Lemma from_u62_canonical x v : from_u62 x = Ok v -> canonical v.
Proof.
  unfold from_u62. destruct (_ && _); intros H; inversion H. apply mod_P_canonical.
Qed.

(** ** Arrays *)

Lemma index_app (pre rest : list Z) x :
  index (pre ++ x :: rest) (length pre) = Ok x.
Proof.
  unfold index. rewrite nth_error_app2, Nat.sub_diag by lia. reflexivity.
Qed.

Lemma set_nth_app (pre rest : list Z) x v :
  set_nth (pre ++ x :: rest) (length pre) v = pre ++ v :: rest.
Proof. induction pre as [|y pre IH]; simpl; [reflexivity | now rewrite IH]. Qed.

Lemma assign_app (pre rest : list Z) x v :
  assign (pre ++ x :: rest) (length pre) v = Ok (pre ++ v :: rest).
Proof.
  unfold assign. rewrite length_app. simpl.
  destruct (Nat.ltb_spec (length pre) (length pre + S (length rest))); [|lia].
  now rewrite set_nth_app.
Qed.

Lemma length_set_nth (a : list Z) i v : length (set_nth a i v) = length a.
Proof.
  revert i; induction a as [|x a IH]; intros [|i]; simpl; auto.
Qed.

Lemma nth_set_nth_ne (a : list Z) i j v :
  i <> j -> nth j (set_nth a i v) 0 = nth j a 0.
Proof.
  revert i j; induction a as [|x a IH]; intros [|i] [|j] Hij; simpl; auto.
  congruence.
Qed.

Lemma nth_set_nth_eq (a : list Z) i v :
  (i < length a)%nat -> nth i (set_nth a i v) 0 = v.
Proof.
  revert i; induction a as [|x a IH]; intros [|i] Hi; simpl in *; try lia; auto.
  apply IH. lia.
Qed.

(** ** [permute_mut] computes the matrix product *)

(** The loop of [permute_mut], entered with [pre] already written and [rest]
    still holding the inputs. *)
Lemma permute_mut_loop rest pre first shs full_sum :
  length pre = S (length first) ->
  (length rest <= length shs)%nat ->
  Forall value_bound rest -> Forall shift_bound shs ->
  0 <= full_sum < 2 ^ 61 ->
  for_range (length pre) (length rest) (permute_mut_step full_sum (first ++ shs))
    (pre ++ rest)
  = Ok (pre ++ map (fun xs_ => (full_sum + 2 ^ snd xs_ * fst xs_) mod P)
                   (combine rest shs)).
Proof.
  revert pre first shs.
  induction rest as [|x rest IH]; intros pre first shs Hlen Hle Hrest Hshs Hfs.
  - simpl. now rewrite app_nil_r.
  - destruct shs as [|s shs]; simpl in Hle; [lia|].
    inversion Hrest as [|? ? Hx Hrest']; subst.
    inversion Hshs as [|? ? Hs Hshs']; subst.
    unfold value_bound in Hx. unfold shift_bound in Hs.
    assert (Hpow : 0 < 2 ^ s <= 2 ^ 30).
    { split; [apply Z.pow_pos_nonneg; lia | apply Z.pow_le_mono_r; lia]. }
    simpl length. simpl for_range. unfold permute_mut_step at 1.
    rewrite index_app. simpl bind.
    replace (length pre - 1)%nat with (length first) by lia.
    rewrite index_app. simpl bind.
    rewrite u64_shl_ok by (unfold U64_MAX; nia). simpl bind.
    rewrite u64_add_ok by (unfold U64_MAX; nia). simpl bind.
    rewrite from_u62_ok by nia. simpl bind.
    rewrite assign_app. simpl bind.
    replace (pre ++ (full_sum + x * 2 ^ s) mod P :: rest)
      with ((pre ++ [(full_sum + x * 2 ^ s) mod P]) ++ rest)
      by (rewrite <- app_assoc; reflexivity).
    replace (first ++ s :: shs) with ((first ++ [s]) ++ shs)
      by (rewrite <- app_assoc; reflexivity).
    replace (S (length pre)) with (length (pre ++ [(full_sum + x * 2 ^ s) mod P]))
      by (rewrite length_app; simpl; lia).
    rewrite IH by (try rewrite !length_app; simpl; auto; lia).
    rewrite <- app_assoc. simpl. rewrite (Z.mul_comm x). reflexivity.
Qed.

(** For values below 2^31, shifts up to 30 and at most 2^30 entries,
    [permute_mut] never fails and returns the matrix product. *)
Lemma permute_mut_formula state shifts :
  Forall value_bound state -> Forall shift_bound shifts ->
  length state = S (length shifts) -> Z.of_nat (length state) <= 2 ^ 30 ->
  permute_mut state shifts = Ok (diffusion_formula state shifts).
Proof.
  intros Hst Hsh Hlen HN.
  destruct state as [|x0 xs]; [discriminate|].
  inversion Hst as [|? ? Hx0 Hxs]; subst.
  simpl in Hlen. injection Hlen as Hlen.
  pose proof (z_sum_bound xs Hxs) as Hsum.
  pose proof (neg_bound x0 Hx0) as Hneg.
  unfold value_bound in Hx0, Hneg. simpl length in HN.
  rewrite Nat2Z.inj_succ in HN.
  set (rhs := diffusion_formula (x0 :: xs) shifts).
  unfold permute_mut. cbv zeta.
  simpl length.
  destruct (Nat.eqb_spec (length shifts + 1) (S (length xs))) as [_|Hne];
    [|lia].
  cbn [negb]. unfold slice_from, u64_sum. simpl.
  rewrite u64_sum_from_ok
    by (try (eapply Forall_impl; [|exact Hxs]; unfold value_bound; intros; lia);
        unfold U64_MAX; nia).
  simpl bind.
  rewrite u64_add_ok by (unfold U64_MAX; nia). simpl bind.
  rewrite u64_add_ok by (unfold U64_MAX; nia). simpl bind.
  rewrite from_u62_ok by nia. simpl bind.
  unfold assign. simpl. rewrite Nat.sub_0_r.
  pose proof (permute_mut_loop xs [(z_sum xs + M31.neg x0) mod P] [] shifts
                (z_sum xs + x0)) as L.
  simpl app in L. simpl length in L.
  rewrite L; [| reflexivity | lia | exact Hxs | exact Hsh | nia].
  unfold rhs, diffusion_formula. cbn [z_sum fold_right]. fold (z_sum xs).
  f_equal. f_equal.
  - mod_congr.
  - apply map_ext. intros [x s]. simpl. f_equal. ring.
Qed.

(** ** The per-entry formula is the matrix product *)

Lemma z_sum_nth_seq (x : list Z) :
  z_sum (map (fun j => nth j x 0) (seq 0 (length x))) = z_sum x.
Proof.
  induction x as [|a x IH]; [reflexivity|].
  simpl length. rewrite <- cons_seq, <- seq_shift. simpl. rewrite map_map. simpl.
  now rewrite IH.
Qed.

Lemma row_sum V (x : list Z) i k n :
  z_sum (map (fun j => internal_matrix V i j * nth j x 0) (seq k n))
  = z_sum (map (fun j => nth j x 0) (seq k n))
    + (if (k <=? i)%nat && (i <? k + n)%nat then nth i V 0 * nth i x 0 else 0).
Proof.
  revert k. induction n as [|n IH]; intros k; simpl.
  - destruct (Nat.leb_spec k i), (Nat.ltb_spec i (k + 0)); simpl; lia.
  - rewrite IH. unfold internal_matrix.
    destruct (Nat.eqb_spec i k) as [->|Hne].
    + rewrite Nat.leb_refl, (proj2 (Nat.ltb_lt k (k + S n))) by lia.
      rewrite (proj2 (Nat.leb_gt (S k) k)) by lia. cbn [andb]. ring.
    + destruct (Nat.leb_spec k i), (Nat.leb_spec (S k) i),
        (Nat.ltb_spec i (k + S n)), (Nat.ltb_spec i (S k + n));
        cbn [andb]; try lia; ring.
Qed.

Lemma nth_map_lt {A B} (f : A -> B) (l : list A) n d d' :
  (n < length l)%nat -> nth n (map f l) d = f (nth n l d').
Proof.
  intros Hn. rewrite (nth_indep _ d (f d')) by (rewrite length_map; exact Hn).
  apply map_nth.
Qed.

Lemma diffusion_formula_matrix (state shifts : list Z) :
  length state = S (length shifts) ->
  diffusion_formula state shifts
  = mat_vec_mod (internal_matrix (diag_V shifts)) state.
Proof.
  intros Hlen. destruct state as [|x0 xs]; [discriminate|].
  simpl in Hlen. injection Hlen as Hlen.
  apply nth_ext with (d := 0) (d' := 0).
  - unfold mat_vec_mod, diffusion_formula. simpl.
    rewrite ?length_map, ?length_seq, ?length_combine; simpl;
    rewrite ?length_map, ?length_seq, ?length_combine; lia.
  - intros n Hn. unfold diffusion_formula in Hn. simpl in Hn.
    rewrite length_map, length_combine in Hn.
    unfold mat_vec_mod.
    rewrite (nth_map_lt _ _ _ _ 0%nat) by (rewrite length_seq; simpl; lia).
    rewrite seq_nth by (simpl; lia). simpl plus.
    rewrite row_sum, z_sum_nth_seq.
    rewrite (proj2 (Nat.ltb_lt n (0 + length (x0 :: xs)))) by (simpl; lia).
    simpl andb. unfold diffusion_formula.
    destruct n as [|n]; cbn [nth].
    + unfold z_sum, diag_V. cbn [fold_right nth]. f_equal. ring.
    + rewrite (nth_map_lt _ _ _ _ (0, 0)) by (rewrite length_combine; lia).
      rewrite combine_nth by exact Hlen. simpl.
      rewrite (nth_map_lt _ _ _ _ 0) by lia. reflexivity.
Qed.

(** ** Every value [permute_mut] writes comes out of [from_u62] *)

Lemma bind_ok {A B} (m : Result A) (f : A -> Result B) b :
  bind m f = Ok b -> exists a, m = Ok a /\ f a = Ok b.
Proof. destruct m as [a|e]; simpl; [eauto | discriminate]. Qed.

Ltac bind_inv H :=
  repeat match type of H with
  | bind ?m _ = Ok _ =>
      let a := fresh "a" in let Ha := fresh "Ha" in
      apply bind_ok in H; destruct H as [a [Ha H]]
  end.

Lemma assign_ok (a : list Z) i v a' :
  assign a i v = Ok a' -> (i < length a)%nat /\ a' = set_nth a i v.
Proof.
  unfold assign. destruct (Nat.ltb_spec i (length a)); intros E; inversion E; auto.
Qed.

Lemma permute_mut_step_writes fs shifts i a a' :
  permute_mut_step fs shifts i a = Ok a' ->
  exists v, canonical v /\ (i < length a)%nat /\ a' = set_nth a i v.
Proof.
  unfold permute_mut_step. intros H. bind_inv H.
  apply assign_ok in H. destruct H as [Hi ->].
  eexists; split; [eapply from_u62_canonical; eassumption | auto].
Qed.

Lemma for_range_canonical fs shifts n k a a' :
  for_range k n (permute_mut_step fs shifts) a = Ok a' ->
  (forall j, (j < k)%nat -> (j < length a)%nat -> canonical (nth j a 0)) ->
  length a' = length a /\
  forall j, (j < k + n)%nat -> (j < length a)%nat -> canonical (nth j a' 0).
Proof.
  revert k a. induction n as [|n IH]; intros k a Hrun Hpre; simpl in Hrun.
  - inversion Hrun; subst. split; [reflexivity|]. intros j Hj. apply Hpre. lia.
  - bind_inv Hrun. apply permute_mut_step_writes in Ha.
    destruct Ha as [v [Hv [Hk ->]]].
    apply IH in Hrun.
    + rewrite length_set_nth in Hrun. destruct Hrun as [Hl Hall].
      split; [exact Hl|]. intros j Hj Hja. apply Hall; lia.
    + intros j Hj Hja. rewrite length_set_nth in Hja.
      destruct (Nat.eq_dec j k) as [->|Hne].
      * rewrite nth_set_nth_eq by exact Hk. exact Hv.
      * rewrite nth_set_nth_ne by auto. apply Hpre; lia.
Qed.

Lemma Forall_nth_canonical (l : list Z) :
  (forall j, (j < length l)%nat -> canonical (nth j l 0)) -> Forall canonical l.
Proof.
  intros H. apply Forall_forall. intros x Hx.
  destruct (In_nth l x 0 Hx) as [j [Hj <-]]. auto.
Qed.

Lemma canonical_diffusion_formula state shifts :
  Forall canonical (diffusion_formula state shifts).
Proof.
  destruct state as [|x0 xs]; simpl; constructor; [apply mod_P_canonical|].
  apply Forall_forall. intros y Hy. apply in_map_iff in Hy.
  destruct Hy as [p [<- _]]. apply mod_P_canonical.
Qed.

Lemma length_diffusion_formula state shifts :
  length state = S (length shifts) ->
  length (diffusion_formula state shifts) = length state.
Proof.
  destruct state as [|x0 xs]; simpl; [discriminate|]. intros H.
  rewrite length_map, length_combine. lia.
Qed.

(** ** The generic layer computes the same formula *)

Lemma fold_add_cons x l acc :
  fold_left M31.add (x :: l) acc = (acc + z_sum (x :: l)) mod P.
Proof.
  revert x acc. induction l as [|y l IH]; intros x acc.
  - simpl. unfold M31.add. f_equal. ring.
  - change (fold_left M31.add (y :: l) (M31.add acc x)
              = (acc + z_sum (x :: y :: l)) mod P).
    rewrite IH. unfold M31.add, z_sum. cbn [fold_right]. mod_congr.
Qed.

Lemma zip_skip_update_0 {R} (f : R -> Z -> R) vs ss :
  length vs = length ss ->
  zip_skip_update f 0 vs ss = map (fun p => f (fst p) (snd p)) (combine vs ss).
Proof.
  revert ss. induction vs as [|v vs IH]; intros [|s ss] H; simpl in *;
    try discriminate; auto.
  f_equal. apply IH. lia.
Qed.

Lemma internal_linear_layer_formula x0 x1 x2 rest shs :
  length rest = length shs ->
  internal_linear_layer (0 :: 1 :: shs) (x0 :: x1 :: x2 :: rest)
  = diffusion_formula (x0 :: x1 :: x2 :: rest) (0 :: 1 :: shs).
Proof.
  intros Hlen. unfold internal_linear_layer, diffusion_formula.
  cbn [zip_skip_update Nat.pred combine map fst snd].
  rewrite zip_skip_update_0 by exact Hlen.
  change (@r_add Z Mersenne31_ring) with M31.add.
  change (@r_sub Z Mersenne31_ring) with M31.sub.
  change (@r_double Z Mersenne31_ring) with M31.double.
  change (@r_mul_2exp_u64 Z Mersenne31_ring) with M31.mul_2exp_u64.
  unfold r_sum. change (@r_zero Z Mersenne31_ring) with 0.
  rewrite fold_add_cons.
  unfold M31.double, M31.add, M31.sub, M31.mul_2exp_u64, z_sum.
  cbn [fold_right].
  f_equal; [mod_congr|]. f_equal; [mod_congr|]. f_equal; [mod_congr|].
  apply map_ext. intros [x s]. cbn [fst snd]. mod_congr.
Qed.
(** ** Linearity of the formula *)

Lemma length_lincomb a x b y :
  length x = length y -> length (lincomb a x b y) = length x.
Proof. intros H. unfold lincomb. rewrite length_map, length_combine. lia. Qed.

Lemma canonical_lincomb a x b y : Forall canonical (lincomb a x b y).
Proof.
  apply Forall_forall. intros z Hz. unfold lincomb in Hz.
  apply in_map_iff in Hz. destruct Hz as [p [<- _]]. apply mod_P_canonical.
Qed.

Lemma z_sum_lincomb a x b y :
  length x = length y ->
  eqm P (z_sum (lincomb a x b y)) (a * z_sum x + b * z_sum y).
Proof.
  revert y. induction x as [|u x IH]; intros [|v y] H; simpl in H; try discriminate.
  - unfold eqm, lincomb, z_sum. simpl. f_equal. ring.
  - injection H as H. unfold lincomb. cbn [combine map z_sum fold_right fst snd].
    fold (z_sum (map (fun uv => M31.add (M31.mul a (fst uv)) (M31.mul b (snd uv)))
                   (combine x y))).
    fold (lincomb a x b y). fold (z_sum x). fold (z_sum y).
    rewrite (IH y H). unfold M31.add, M31.mul.
    rewrite !(Zmod_eqm P). unfold eqm. f_equal. ring.
Qed.

Lemma map_lincomb_tail a b Sx Sy Sz xs ys shs :
  length xs = length ys ->
  eqm P Sz (a * Sx + b * Sy) ->
  map (fun p => (Sz + 2 ^ snd p * fst p) mod P) (combine (lincomb a xs b ys) shs)
  = lincomb a (map (fun p => (Sx + 2 ^ snd p * fst p) mod P) (combine xs shs))
            b (map (fun p => (Sy + 2 ^ snd p * fst p) mod P) (combine ys shs)).
Proof.
  intros Hlen Hs. revert ys shs Hlen.
  induction xs as [|u xs IH]; intros [|v ys] [|s shs] Hlen; simpl in Hlen;
    try discriminate; try reflexivity.
  injection Hlen as Hlen. unfold lincomb in *. cbn [combine map fst snd].
  f_equal; [|apply IH; exact Hlen].
  unfold M31.add, M31.mul. change (eqm P (Sz + 2 ^ s * ((a * u mod P + b * v mod P) mod P))
    ((a * ((Sx + 2 ^ s * u) mod P)) mod P + (b * ((Sy + 2 ^ s * v) mod P)) mod P)).
  rewrite Hs, !(Zmod_eqm P). unfold eqm. f_equal. ring.
Qed.

Lemma diffusion_formula_rows state shifts :
  diffusion_formula state shifts = diffusion_rows (z_sum state) state shifts.
Proof. destruct state; reflexivity. Qed.

Lemma diffusion_rows_lincomb a b Sx Sy Sz x y shifts :
  length x = length y ->
  eqm P Sz (a * Sx + b * Sy) ->
  diffusion_rows Sz (lincomb a x b y) shifts
  = lincomb a (diffusion_rows Sx x shifts) b (diffusion_rows Sy y shifts).
Proof.
  intros Hlen Hs.
  destruct x as [|u xs], y as [|v ys]; simpl in Hlen; try discriminate;
    [reflexivity|].
  injection Hlen as Hlen'. unfold diffusion_rows, lincomb.
  cbn [combine map fst snd]. f_equal.
  - unfold M31.add, M31.mul. change (eqm P
      (Sz - 2 * ((a * u mod P + b * v mod P) mod P))
      ((a * ((Sx - 2 * u) mod P)) mod P + (b * ((Sy - 2 * v) mod P)) mod P)).
    rewrite Hs, !(Zmod_eqm P). unfold eqm. f_equal. ring.
  - apply map_lincomb_tail; assumption.
Qed.

Lemma diffusion_formula_lincomb a b x y shifts :
  length x = length y ->
  diffusion_formula (lincomb a x b y) shifts
  = lincomb a (diffusion_formula x shifts) b (diffusion_formula y shifts).
Proof.
  intros Hlen. rewrite !diffusion_formula_rows.
  apply diffusion_rows_lincomb; [exact Hlen|]. apply z_sum_lincomb, Hlen.
Qed.

(** ** The internal rounds *)

Lemma Forall_canonical_value_bound l : Forall canonical l -> Forall value_bound l.
Proof. apply Forall_impl, canonical_value_bound. Qed.

Lemma internal_permute_state_runs shifts consts state :
  Forall shift_bound shifts -> length state = S (length shifts) ->
  Z.of_nat (length state) <= 2 ^ 30 -> Forall canonical state ->
  exists out,
    internal_permute_state state (fun x => permute_mut x shifts) consts
    = Ok (out, consts)
    /\ Forall canonical out /\ length out = length state.
Proof.
  intros Hsh. revert state.
  induction consts as [|rc consts IH]; intros state Hlen HN Hst.
  - exists state. auto.
  - destruct state as [|x0 xs]; [discriminate|].
    inversion Hst as [|? ? Hx0 Hxs]; subst.
    cbn [internal_permute_state]. unfold index. cbn [nth_error bind].
    unfold assign. cbn [length set_nth].
    rewrite (proj2 (Nat.ltb_lt 0 (S (length xs)))) by lia. cbn [bind].
    assert (Hst' : Forall canonical (sbox (M31.add x0 rc) :: xs))
      by (constructor; [apply mod_P_canonical | exact Hxs]).
    rewrite permute_mut_formula
      by (try apply Forall_canonical_value_bound; auto). cbn [bind].
    destruct (IH (diffusion_formula (sbox (M31.add x0 rc) :: xs) shifts))
      as [out [Hrun [Hout Hlen']]].
    + rewrite length_diffusion_formula; auto.
    + rewrite length_diffusion_formula; auto.
    + apply canonical_diffusion_formula.
    + exists out. rewrite Hrun. cbn [bind fst snd].
      rewrite Hlen', length_diffusion_formula by auto. auto.
Qed.

(** ** p is prime, and x |-> x^5 is invertible *)

Lemma no_divisor_from_spec p d n :
  no_divisor_from p d n = true ->
  forall e, d <= e < d + Z.of_nat n -> p mod e <> 0.
Proof.
  revert d. induction n as [|n IH]; intros d H e He; simpl in *; [lia|].
  apply andb_prop in H. destruct H as [H1 H2].
  destruct (Z.eq_dec e d) as [->|Hne].
  - apply negb_true_iff, Z.eqb_neq in H1. exact H1.
  - apply (IH (d + 1)); [exact H2 | lia].
Qed.

Lemma P_prime : Z.prime P.
Proof.
  assert (Hchk : no_divisor_from P 2 (Z.to_nat 46339) = true) by (vm_compute; reflexivity).
  pose proof (no_divisor_from_spec _ _ _ Hchk) as Hnd.
  rewrite Z2Nat.id in Hnd by lia.
  split; [unfold P; lia|]. intros n Hn [k Hk].
  assert (Hk1 : 1 < k < P) by (unfold P in *; nia).
  assert (Hsmall : n <= 46340 \/ k <= 46340) by (unfold P in *; nia).
  destruct Hsmall as [Hs|Hs].
  - apply (Hnd n); [lia|]. rewrite Hk. apply Z.mod_mul. lia.
  - apply (Hnd k); [lia|]. rewrite Hk, Z.mul_comm. apply Z.mod_mul. lia.
Qed.

Lemma pow_fermat_power x k :
  canonical x -> 0 <= k -> x ^ (k * (P - 1) + 1) mod P = x.
Proof.
  intros Hx Hk. unfold canonical in Hx.
  destruct (Z.eq_dec x 0) as [->|Hnz].
  - rewrite Z.pow_0_l by (unfold P; nia). reflexivity.
  - assert (HP : 0 <= P - 1) by (unfold P; lia).
    rewrite Z.pow_add_r by nia. rewrite Z.pow_1_r.
    rewrite (Z.mul_comm k (P - 1)), Z.pow_mul_r by lia.
    rewrite Zmult_mod, <- (Z.mod_pow_l (x ^ (P - 1)) k P).
    rewrite ZmodInv.Z.fermat_nz by (exact P_prime || rewrite Z.mod_small; lia).
    rewrite Z.pow_1_l by exact Hk.
    rewrite (Z.mod_small 1), (Z.mod_small x), Z.mul_1_l by (unfold P in *; lia).
    apply Z.mod_small. lia.
Qed.

Lemma sbox_left_inverse x :
  canonical x -> M31.exp_u64 (sbox x) sbox_inv_exponent = x.
Proof.
  intros Hx. unfold sbox, M31.exp_u64, MERSENNE31_S_BOX_DEGREE.
  rewrite Z.mod_pow_l, <- Z.pow_mul_r by (unfold sbox_inv_exponent; lia).
  replace (5 * sbox_inv_exponent) with (4 * (P - 1) + 1)
    by (unfold sbox_inv_exponent, P; reflexivity).
  apply pow_fermat_power; [exact Hx | lia].
Qed.

Lemma sbox_right_inverse y :
  canonical y -> sbox (M31.exp_u64 y sbox_inv_exponent) = y.
Proof.
  intros Hy. unfold sbox, M31.exp_u64, MERSENNE31_S_BOX_DEGREE.
  rewrite Z.mod_pow_l, <- Z.pow_mul_r by (unfold sbox_inv_exponent; lia).
  replace (sbox_inv_exponent * 5) with (4 * (P - 1) + 1)
    by (unfold sbox_inv_exponent, P; reflexivity).
  apply pow_fermat_power; [exact Hy | lia].
Qed.

(** ** Helpers for the claims *)

Ltac concrete_bounds :=
  repeat constructor; unfold canonical, value_bound, shift_bound, P; lia.

Lemma generic_matches_formula x0 x1 x2 rest shs :
  length rest = length shs ->
  Forall canonical (x0 :: x1 :: x2 :: rest) -> Forall shift_bound (0 :: 1 :: shs) ->
  Z.of_nat (length (x0 :: x1 :: x2 :: rest)) <= 2 ^ 30 ->
  permute_mut (x0 :: x1 :: x2 :: rest) (0 :: 1 :: shs)
  = Ok (internal_linear_layer (0 :: 1 :: shs) (x0 :: x1 :: x2 :: rest)).
Proof.
  intros Hlen Hst Hsh HN.
  rewrite internal_linear_layer_formula by exact Hlen.
  apply permute_mut_formula; auto.
  - apply Forall_canonical_value_bound, Hst.
  - simpl. lia.
Qed.

Lemma shift_tables_bound :
  Forall shift_bound POSEIDON2_INTERNAL_MATRIX_DIAG_16_SHIFTS
  /\ Forall shift_bound POSEIDON2_INTERNAL_MATRIX_DIAG_24_SHIFTS.
Proof. split; concrete_bounds. Qed.

(** * The claims *)

(** C1: for each shift table [permute_mut] is called with (the width-16 and
    the width-24 table) and every state of N canonical field elements with
    N = length(shifts) + 1, [permute_mut] replaces the state with the product
    of the matrix 1 + Diag(V) (the all-ones matrix plus the diagonal
    V = [-2, 2^shifts[0], 2^shifts[1], ...]) with the state, reduced modulo p;
    per entry, new state[0] = sum - 2 * state[0] and
    new state[i] = sum + 2^shifts[i-1] * state[i], modulo p. *)
Theorem permute_mut_matrix_product state shifts :
  shifts = POSEIDON2_INTERNAL_MATRIX_DIAG_16_SHIFTS
  \/ shifts = POSEIDON2_INTERNAL_MATRIX_DIAG_24_SHIFTS ->
  Forall canonical state -> length state = (length shifts + 1)%nat ->
  permute_mut state shifts = Ok (mat_vec_mod (internal_matrix (diag_V shifts)) state)
  /\ mat_vec_mod (internal_matrix (diag_V shifts)) state
     = diffusion_formula state shifts.
Proof.
  intros Hs Hst Hlen.
  assert (Hsh : Forall shift_bound shifts /\ (length shifts <= 23)%nat)
    by (destruct shift_tables_bound as [H16 H24];
        destruct Hs as [-> | ->]; split; auto; simpl; lia).
  destruct Hsh as [Hsh Hls]. rewrite Nat.add_1_r in Hlen.
  rewrite <- diffusion_formula_matrix by exact Hlen. split; [|reflexivity].
  apply permute_mut_formula; auto; [apply Forall_canonical_value_bound, Hst | lia].
Qed.

Lemma permute_mut_matrix_product_witness :
  permute_mut test_input_16 POSEIDON2_INTERNAL_MATRIX_DIAG_16_SHIFTS
  = Ok (mat_vec_mod (internal_matrix (diag_V POSEIDON2_INTERNAL_MATRIX_DIAG_16_SHIFTS))
          test_input_16).
Proof.
  apply (permute_mut_matrix_product test_input_16 POSEIDON2_INTERNAL_MATRIX_DIAG_16_SHIFTS);
    [left; reflexivity | concrete_bounds | reflexivity].
Defined.

(** C2: for widths 16 and 24 and every state of canonical field elements, the
    generic [internal_linear_layer] instantiated with [R = Mersenne31] gives the
    same state as [permute_mut] with the matching shift table. *)
Theorem generic_layer_matches_permute_mut state :
  Forall canonical state ->
  (length state = 16%nat ->
   permute_mut state POSEIDON2_INTERNAL_MATRIX_DIAG_16_SHIFTS
   = Ok (internal_linear_layer_16 (R := Mersenne31) state))
  /\ (length state = 24%nat ->
   permute_mut state POSEIDON2_INTERNAL_MATRIX_DIAG_24_SHIFTS
   = Ok (internal_linear_layer_24 (R := Mersenne31) state)).
Proof.
  intros Hst. destruct shift_tables_bound as [H16 H24].
  split; intros Hlen;
    (destruct state as [|x0 [|x1 [|x2 rest]]]; simpl in Hlen; try discriminate);
    unfold internal_linear_layer_16, internal_linear_layer_24;
    apply generic_matches_formula; auto; simpl; lia.
Qed.

Lemma generic_layer_matches_permute_mut_witness :
  permute_mut test_input_24 POSEIDON2_INTERNAL_MATRIX_DIAG_24_SHIFTS
  = Ok (internal_linear_layer_24 (R := Mersenne31) test_input_24).
Proof.
  apply (proj2 (generic_layer_matches_permute_mut test_input_24 ltac:(concrete_bounds)));
    reflexivity.
Defined.

(** C4: both shift tables have entries at most 22, and for every state of up
    to 24 values below 2^31 with shifts at most 22 (N = length(shifts) + 1),
    every intermediate value of [permute_mut] ([part_sum], [full_sum], [s0]
    and each [full_sum + (state[i] << shifts[i-1])]) is below 2^62, and
    [permute_mut] runs without a [u64] overflow or a violated [from_u62]
    precondition. *)
Theorem permute_mut_intermediates_below_2_62 state shifts :
  Forall value_bound state -> Forall (fun s => 0 <= s <= 22) shifts ->
  length state = (length shifts + 1)%nat -> (length state <= 24)%nat ->
  Forall (fun s => 0 <= s <= 22) POSEIDON2_INTERNAL_MATRIX_DIAG_16_SHIFTS
  /\ Forall (fun s => 0 <= s <= 22) POSEIDON2_INTERNAL_MATRIX_DIAG_24_SHIFTS
  /\ Forall (fun v => 0 <= v < 2 ^ 62) (permute_mut_intermediates state shifts)
  /\ exists out, permute_mut state shifts = Ok out.
Proof.
  intros Hst Hsh Hlen HN.
  split; [concrete_bounds|]. split; [concrete_bounds|]. split.
  - destruct state as [|x0 xs]; [constructor|].
    inversion Hst as [|? ? Hx0 Hxs]; subst.
    pose proof (z_sum_bound xs Hxs) as Hsum.
    pose proof (neg_bound x0 Hx0) as Hneg.
    unfold value_bound in Hx0, Hneg. simpl length in HN.
    assert (Hxs' : Z.of_nat (length xs) <= 23) by lia.
    unfold permute_mut_intermediates.
    repeat constructor; try nia.
    apply Forall_forall. intros v Hv. apply in_map_iff in Hv.
    destruct Hv as [[x s] [<- Hin]]. cbn [fst snd].
    pose proof (in_combine_l _ _ _ _ Hin) as Hx.
    pose proof (in_combine_r _ _ _ _ Hin) as Hs.
    rewrite Forall_forall in Hxs, Hsh.
    specialize (Hxs x Hx). specialize (Hsh s Hs). unfold value_bound in Hxs.
    assert (Hp : 0 < 2 ^ s <= 2 ^ 22)
      by (split; [apply Z.pow_pos_nonneg | apply Z.pow_le_mono_r]; lia).
    nia.
  - eexists. apply permute_mut_formula; auto.
    + eapply Forall_impl; [|exact Hsh]. unfold shift_bound. intros; lia.
    + lia.
    + lia.
Qed.

Lemma permute_mut_intermediates_below_2_62_witness :
  Forall (fun v => 0 <= v < 2 ^ 62)
    (permute_mut_intermediates test_input_24 POSEIDON2_INTERNAL_MATRIX_DIAG_24_SHIFTS).
Proof.
  apply (permute_mut_intermediates_below_2_62 test_input_24
           POSEIDON2_INTERNAL_MATRIX_DIAG_24_SHIFTS);
    [concrete_bounds | concrete_bounds | reflexivity | simpl; lia].
Defined.

(** C5: the diffusion alone ([permute_mut] with the matching table, and the
    generic [internal_linear_layer] over [Mersenne31]) maps the all-zero
    state of width 16 and of width 24 to the all-zero state. *)
Theorem diffusion_zero_fixpoint :
  permute_mut (repeat 0 16) POSEIDON2_INTERNAL_MATRIX_DIAG_16_SHIFTS = Ok (repeat 0 16)
  /\ permute_mut (repeat 0 24) POSEIDON2_INTERNAL_MATRIX_DIAG_24_SHIFTS = Ok (repeat 0 24)
  /\ internal_linear_layer_16 (R := Mersenne31) (repeat 0 16) = repeat 0 16
  /\ internal_linear_layer_24 (R := Mersenne31) (repeat 0 24) = repeat 0 24.
Proof. repeat split; vm_compute; reflexivity. Qed.

(** C6: [permute_mut] with a matching table is linear over the field: for
    scalars a, b and states x, y of width 16 (or 24),
    permute_mut(a x + b y) = a permute_mut(x) + b permute_mut(y). *)
Theorem permute_mut_linear shifts a b x y :
  shifts = POSEIDON2_INTERNAL_MATRIX_DIAG_16_SHIFTS
  \/ shifts = POSEIDON2_INTERNAL_MATRIX_DIAG_24_SHIFTS ->
  canonical a -> canonical b -> Forall canonical x -> Forall canonical y ->
  length x = (length shifts + 1)%nat -> length y = (length shifts + 1)%nat ->
  exists x' y',
    permute_mut x shifts = Ok x' /\ permute_mut y shifts = Ok y'
    /\ permute_mut (lincomb a x b y) shifts = Ok (lincomb a x' b y').
Proof.
  intros Hs Ha Hb Hx Hy Hlx Hly.
  assert (Hsh : Forall shift_bound shifts /\ (length shifts <= 23)%nat)
    by (destruct Hs as [->| ->]; split; [concrete_bounds | simpl; lia
                                        | concrete_bounds | simpl; lia]).
  destruct Hsh as [Hsh Hlen]. rewrite Nat.add_1_r in Hlx, Hly.
  exists (diffusion_formula x shifts), (diffusion_formula y shifts).
  split; [|split].
  - apply permute_mut_formula; auto; [apply Forall_canonical_value_bound, Hx | lia].
  - apply permute_mut_formula; auto; [apply Forall_canonical_value_bound, Hy | lia].
  - rewrite <- diffusion_formula_lincomb by congruence.
    apply permute_mut_formula; auto.
    + apply Forall_canonical_value_bound, canonical_lincomb.
    + rewrite length_lincomb; congruence.
    + rewrite length_lincomb by congruence. lia.
Qed.

Lemma permute_mut_linear_witness :
  exists x' y',
    permute_mut test_input_16 POSEIDON2_INTERNAL_MATRIX_DIAG_16_SHIFTS = Ok x'
    /\ permute_mut (repeat 7 16) POSEIDON2_INTERNAL_MATRIX_DIAG_16_SHIFTS = Ok y'
    /\ permute_mut (lincomb 3 test_input_16 5 (repeat 7 16))
         POSEIDON2_INTERNAL_MATRIX_DIAG_16_SHIFTS = Ok (lincomb 3 x' 5 y').
Proof.
  apply (permute_mut_linear POSEIDON2_INTERNAL_MATRIX_DIAG_16_SHIFTS 3 5
           test_input_16 (repeat 7 16));
    [left; reflexivity | concrete_bounds | concrete_bounds | concrete_bounds
    | concrete_bounds | reflexivity | reflexivity].
Defined.

(** C7: the internal constant tables of the default instances have 13
    entries (width 16) and 21 entries (width 24), and on every canonical state
    of the matching width the internal layer runs its round (add the constant
    to element 0, S-box on element 0, diffusion) once per table entry, in
    table order: the constants it consumes are exactly the table. *)
Theorem internal_rounds_once_per_constant :
  length MERSENNE31_RC16_INTERNAL = 13%nat
  /\ length MERSENNE31_RC24_INTERNAL = 21%nat
  /\ (forall state, Forall canonical state -> length state = 16%nat ->
       exists out,
         permute_state_16 (internal_layer default_mersenne31_poseidon2_16) state
         = Ok (out, MERSENNE31_RC16_INTERNAL))
  /\ (forall state, Forall canonical state -> length state = 24%nat ->
       exists out,
         permute_state_24 (internal_layer default_mersenne31_poseidon2_24) state
         = Ok (out, MERSENNE31_RC24_INTERNAL)).
Proof.
  destruct shift_tables_bound as [H16 H24].
  split; [reflexivity|]. split; [reflexivity|]. split.
  - intros state Hc Hl.
    destruct (internal_permute_state_runs POSEIDON2_INTERNAL_MATRIX_DIAG_16_SHIFTS
                MERSENNE31_RC16_INTERNAL state H16) as [out [Hout _]];
      [rewrite Hl; reflexivity | rewrite Hl; simpl; lia | exact Hc |].
    exists out. exact Hout.
  - intros state Hc Hl.
    destruct (internal_permute_state_runs POSEIDON2_INTERNAL_MATRIX_DIAG_24_SHIFTS
                MERSENNE31_RC24_INTERNAL state H24) as [out [Hout _]];
      [rewrite Hl; reflexivity | rewrite Hl; simpl; lia | exact Hc |].
    exists out. exact Hout.
Qed.

(** C8: [MERSENNE31_S_BOX_DEGREE] is 5, gcd(p - 1, 5) = 1, no D with
    2 <= D < 5 has gcd(p - 1, D) = 1, and x |-> x^5 is a bijection of the
    canonical field elements (injective and surjective on [0, p)). *)
Theorem sbox_degree_5_minimal_and_bijective :
  MERSENNE31_S_BOX_DEGREE = 5
  /\ Z.gcd (P - 1) MERSENNE31_S_BOX_DEGREE = 1
  /\ (forall D, 2 <= D < 5 -> Z.gcd (P - 1) D <> 1)
  /\ (forall x y, canonical x -> canonical y -> sbox x = sbox y -> x = y)
  /\ (forall y, canonical y -> exists x, canonical x /\ sbox x = y).
Proof.
  split; [reflexivity|]. split; [vm_compute; reflexivity|]. split; [|split].
  - intros D HD.
    assert (D = 2 \/ D = 3 \/ D = 4) as [-> | [-> | ->]] by lia;
      vm_compute; discriminate.
  - intros x y Hx Hy E.
    rewrite <- (sbox_left_inverse x Hx), <- (sbox_left_inverse y Hy), E.
    reflexivity.
  - intros y Hy. exists (M31.exp_u64 y sbox_inv_exponent). split.
    + unfold M31.exp_u64. apply mod_P_canonical.
    + apply sbox_right_inverse, Hy.
Qed.

Lemma sbox_degree_5_minimal_and_bijective_witness :
  exists x, canonical x /\ sbox x = 7.
Proof.
  apply (proj2 (proj2 (proj2 (proj2 sbox_degree_5_minimal_and_bijective))) 7).
  unfold canonical, P; lia.
Defined.

(** C9: for each shift table [permute_mut] is called with (the width-16 and
    the width-24 table) and every state of canonical field elements: when
    N = length(shifts) + 1, [permute_mut] returns a result and never fails;
    when N <> length(shifts) + 1, it fails with the debug assertion
    [shifts.len() + 1 == N], before any other step, not with another error. *)
Theorem permute_mut_total_or_assert state shifts :
  shifts = POSEIDON2_INTERNAL_MATRIX_DIAG_16_SHIFTS
  \/ shifts = POSEIDON2_INTERNAL_MATRIX_DIAG_24_SHIFTS ->
  Forall canonical state ->
  ((length state = (length shifts + 1)%nat ->
    exists out, permute_mut state shifts = Ok out)
   /\ (length state <> (length shifts + 1)%nat ->
       permute_mut state shifts = Err DebugAssertEqFailed)).
Proof.
  intros Hs Hc.
  assert (Hsh : Forall shift_bound shifts /\ (length shifts <= 23)%nat)
    by (destruct shift_tables_bound as [H16 H24];
        destruct Hs as [-> | ->]; split; auto; simpl; lia).
  destruct Hsh as [Hsh Hls]. split.
  - intros Hl. eexists. apply permute_mut_formula; auto.
    + apply Forall_canonical_value_bound, Hc.
    + lia.
    + lia.
  - intros Hl. unfold permute_mut. cbv zeta.
    destruct (Nat.eqb_spec (length shifts + 1) (length state)); [lia|].
    reflexivity.
Qed.

Lemma permute_mut_total_or_assert_witness :
  (exists out, permute_mut test_input_16 POSEIDON2_INTERNAL_MATRIX_DIAG_16_SHIFTS = Ok out)
  /\ permute_mut test_input_16 POSEIDON2_INTERNAL_MATRIX_DIAG_24_SHIFTS
     = Err DebugAssertEqFailed.
Proof.
  assert (Hc : Forall canonical test_input_16) by concrete_bounds.
  split.
  - apply (proj1 (permute_mut_total_or_assert test_input_16
                    POSEIDON2_INTERNAL_MATRIX_DIAG_16_SHIFTS (or_introl eq_refl) Hc)).
    reflexivity.
  - apply (proj2 (permute_mut_total_or_assert test_input_16
                    POSEIDON2_INTERNAL_MATRIX_DIAG_24_SHIFTS (or_intror eq_refl) Hc)).
    simpl; lia.
Defined.

(** C10: if [permute_mut] succeeds on a state of canonical elements, every
    element of its output is canonical, for any shift table. *)
Theorem permute_mut_preserves_canonical state shifts out :
  Forall canonical state -> permute_mut state shifts = Ok out ->
  Forall canonical out.
Proof.
  intros Hc Hrun. unfold permute_mut in Hrun. cbv zeta in Hrun.
  destruct (negb _); [discriminate|].
  bind_inv Hrun.
  match goal with H : assign _ 0 _ = Ok _ |- _ => apply assign_ok in H end.
  match goal with H : (_ < _)%nat /\ _ = _ |- _ => destruct H as [Hlt ->] end.
  match goal with H : from_u62 _ = Ok _ |- _ => apply from_u62_canonical in H end.
  apply for_range_canonical in Hrun as [Hlen Hall].
  - apply Forall_nth_canonical. intros j Hj.
    rewrite Hlen, length_set_nth in Hj. apply Hall; [lia|].
    rewrite length_set_nth. exact Hj.
  - intros j Hj Hjl. assert (j = 0%nat) as -> by lia.
    rewrite nth_set_nth_eq by (rewrite length_set_nth in Hjl; exact Hjl).
    assumption.
Qed.

Lemma permute_mut_preserves_canonical_witness :
  Forall canonical [4; 8; 12].
Proof.
  apply (permute_mut_preserves_canonical [1; 2; 3] [0; 1] [4; 8; 12]);
    [concrete_bounds | vm_compute; reflexivity].
Defined.

(** * Further properties of the code *)

(** ** Helpers: divisibility by p *)

Lemma mod_eq_divide a b : a mod P = b mod P -> (P | a - b).
Proof.
  intros H. apply Z.mod_divide; [unfold P; lia|]. apply Z.cong_iff_0, H.
Qed.

Lemma canonical_divide_eq x y : canonical x -> canonical y -> (P | x - y) -> x = y.
Proof.
  unfold canonical. intros Hx Hy [k Hk].
  assert (k = 0) by (unfold P in *; nia). subst. lia.
Qed.

Lemma P_divide_pow2_mul s z : 0 <= s <= 30 -> (P | 2 ^ s * z) -> (P | z).
Proof.
  intros Hs Hd. apply (Z.divide_prime_mul _ _ _ P_prime) in Hd as [Hd|Hd]; auto.
  exfalso. assert (Hpos : 0 < 2 ^ s) by (apply Z.pow_pos_nonneg; lia).
  assert (Hle : 2 ^ s <= 2 ^ 30) by (apply Z.pow_le_mono_r; lia).
  apply Z.divide_pos_le in Hd; [|exact Hpos]. unfold P in Hd. lia.
Qed.

(** ** Helpers: the formula is injective when p does not divide [det_factor] *)

Lemma rows_sum_divide Sx Sy xs ys shs :
  length xs = length shs -> length ys = length shs -> Forall shift_bound shs ->
  map (fun p => (Sx + 2 ^ snd p * fst p) mod P) (combine xs shs)
  = map (fun p => (Sy + 2 ^ snd p * fst p) mod P) (combine ys shs) ->
  (P | (Sx - Sy) * z_sum (map (fun s => 2 ^ (31 - s)) shs)
       + 2 ^ 31 * (z_sum xs - z_sum ys)).
Proof.
  revert xs ys. induction shs as [|s shs IH];
    intros [|x xs] [|y ys] Hlx Hly Hsh Heq; simpl in Hlx, Hly; try discriminate.
  - exists 0. unfold z_sum. simpl. ring.
  - inversion Hsh as [|? ? Hs Hsh']; subst. unfold shift_bound in Hs.
    cbn [combine map fst snd] in Heq. injection Heq as Hhd Htl.
    apply mod_eq_divide in Hhd.
    specialize (IH xs ys ltac:(lia) ltac:(lia) Hsh' Htl).
    assert (HK : 2 ^ (31 - s) * 2 ^ s = 2 ^ 31)
      by (rewrite <- Z.pow_add_r by lia; f_equal; lia).
    apply (Z.divide_mul_l _ _ (2 ^ (31 - s))) in Hhd.
    pose proof (Z.divide_add_r _ _ _ Hhd IH) as Hsum.
    unfold z_sum in *. cbn [map fold_right].
    rewrite <- HK.
    replace ((Sx - Sy) * (2 ^ (31 - s) + fold_right Z.add 0 (map (fun s0 => 2 ^ (31 - s0)) shs))
             + 2 ^ (31 - s) * 2 ^ s * (x + fold_right Z.add 0 xs - (y + fold_right Z.add 0 ys)))
      with ((Sx + 2 ^ s * x - (Sy + 2 ^ s * y)) * 2 ^ (31 - s)
            + ((Sx - Sy) * fold_right Z.add 0 (map (fun s0 => 2 ^ (31 - s0)) shs)
               + 2 ^ 31 * (fold_right Z.add 0 xs - fold_right Z.add 0 ys)))
      by (rewrite <- HK; ring).
    exact Hsum.
Qed.

Lemma rows_eq_canonical Sx Sy xs ys shs :
  length xs = length shs -> length ys = length shs -> Forall shift_bound shs ->
  Forall canonical xs -> Forall canonical ys -> (P | Sx - Sy) ->
  map (fun p => (Sx + 2 ^ snd p * fst p) mod P) (combine xs shs)
  = map (fun p => (Sy + 2 ^ snd p * fst p) mod P) (combine ys shs) ->
  xs = ys.
Proof.
  intros Hlx Hly Hsh Hcx Hcy HS. revert xs ys Hlx Hly Hcx Hcy.
  induction shs as [|s shs IH];
    intros [|x xs] [|y ys] Hlx Hly Hcx Hcy Heq; simpl in Hlx, Hly; try discriminate;
    [reflexivity|].
  inversion Hsh as [|? ? Hs Hsh']; subst. unfold shift_bound in Hs.
  inversion Hcx; inversion Hcy; subst.
  cbn [combine map fst snd] in Heq. injection Heq as Hhd Htl.
  apply mod_eq_divide in Hhd.
  replace (Sx + 2 ^ s * x - (Sy + 2 ^ s * y)) with ((Sx - Sy) + 2 ^ s * (x - y))
    in Hhd by ring.
  apply (Z.divide_add_cancel_r _ _ _ HS), P_divide_pow2_mul in Hhd; [|lia].
  f_equal; [apply canonical_divide_eq; auto|].
  apply IH; auto.
Qed.

Lemma diffusion_formula_injective shifts x y :
  Forall shift_bound shifts -> ~ (P | det_factor shifts) ->
  length x = S (length shifts) -> length y = S (length shifts) ->
  Forall canonical x -> Forall canonical y ->
  diffusion_formula x shifts = diffusion_formula y shifts -> x = y.
Proof.
  intros Hsh Hdet Hlx Hly Hcx Hcy Heq.
  destruct x as [|x0 xs]; [discriminate|]. destruct y as [|y0 ys]; [discriminate|].
  simpl in Hlx, Hly. injection Hlx as Hlx. injection Hly as Hly.
  inversion Hcx as [|? ? Hx0 Hxs]; inversion Hcy as [|? ? Hy0 Hys]; subst.
  unfold diffusion_formula in Heq. injection Heq as Hhd Htl.
  apply mod_eq_divide in Hhd.
  pose proof (rows_sum_divide _ _ _ _ _ Hlx Hly Hsh Htl) as Hrows.
  set (T := z_sum (x0 :: xs) - z_sum (y0 :: ys)).
  assert (HT : (P | T * det_factor shifts)).
  { apply (Z.divide_mul_l _ _ (2 ^ 30)) in Hhd.
    pose proof (Z.divide_sub_r _ _ _ Hrows Hhd) as Hd.
    unfold T, det_factor. unfold z_sum in *. cbn [fold_right] in *.
    replace ((x0 + fold_right Z.add 0 xs - (y0 + fold_right Z.add 0 ys))
             * (2 ^ 31 - 2 ^ 30 + fold_right Z.add 0 (map (fun s => 2 ^ (31 - s)) shifts)))
      with ((x0 + fold_right Z.add 0 xs - (y0 + fold_right Z.add 0 ys))
              * fold_right Z.add 0 (map (fun s => 2 ^ (31 - s)) shifts)
            + 2 ^ 31 * (fold_right Z.add 0 xs - fold_right Z.add 0 ys)
            - (x0 + fold_right Z.add 0 xs - 2 * x0
               - (y0 + fold_right Z.add 0 ys - 2 * y0)) * 2 ^ 30)
      by ring.
    exact Hd. }
  apply (Z.divide_prime_mul _ _ _ P_prime) in HT as [HT|HT]; [|contradiction].
  f_equal.
  - assert (Hhd2 : (P | T + - (2 ^ 1 * (x0 - y0)))).
    { replace (T + - (2 ^ 1 * (x0 - y0)))
        with (z_sum (x0 :: xs) - 2 * x0 - (z_sum (y0 :: ys) - 2 * y0))
        by (unfold T; ring).
      exact Hhd. }
    clear Hhd. rename Hhd2 into Hhd.
    apply (Z.divide_add_cancel_r _ _ _ HT), Z.divide_opp_r, P_divide_pow2_mul in Hhd;
      [|lia].
    apply canonical_divide_eq; auto.
  - apply (rows_eq_canonical _ _ _ _ _ Hlx Hly Hsh Hxs Hys HT Htl).
Qed.

Lemma det_factor_tables :
  ~ (P | det_factor POSEIDON2_INTERNAL_MATRIX_DIAG_16_SHIFTS)
  /\ ~ (P | det_factor POSEIDON2_INTERNAL_MATRIX_DIAG_24_SHIFTS).
Proof.
  split; rewrite <- Z.mod_divide by (unfold P; lia); vm_compute; discriminate.
Qed.

(** ** Helpers: the internal rounds are injective *)

Lemma sbox_add_injective x y rc :
  canonical x -> canonical y -> sbox (M31.add x rc) = sbox (M31.add y rc) -> x = y.
Proof.
  intros Hx Hy E.
  assert (E' : M31.add x rc = M31.add y rc).
  { rewrite <- (sbox_left_inverse (M31.add x rc)), <- (sbox_left_inverse (M31.add y rc)),
      E by apply mod_P_canonical.
    reflexivity. }
  unfold M31.add in E'. apply mod_eq_divide in E'.
  replace (x + rc - (y + rc)) with (x - y) in E' by ring.
  apply canonical_divide_eq; auto.
Qed.

Lemma internal_permute_state_injective shifts consts x y out cx cy :
  Forall shift_bound shifts -> ~ (P | det_factor shifts) ->
  length x = S (length shifts) -> length y = S (length shifts) ->
  Z.of_nat (length x) <= 2 ^ 30 ->
  Forall canonical x -> Forall canonical y ->
  internal_permute_state x (fun v => permute_mut v shifts) consts = Ok (out, cx) ->
  internal_permute_state y (fun v => permute_mut v shifts) consts = Ok (out, cy) ->
  x = y.
Proof.
  intros Hsh Hdet. revert x y cx cy.
  induction consts as [|rc consts IH]; intros x y cx cy Hlx Hly HN Hcx Hcy Hx Hy.
  - simpl in Hx, Hy. injection Hx as -> _. injection Hy as -> _. reflexivity.
  - destruct x as [|x0 xs]; [discriminate|]. destruct y as [|y0 ys]; [discriminate|].
    inversion Hcx as [|? ? Hx0 Hxs]; inversion Hcy as [|? ? Hy0 Hys]; subst.
    cbn [internal_permute_state] in Hx, Hy. unfold index in Hx, Hy.
    cbn [nth_error bind] in Hx, Hy. unfold assign in Hx, Hy. cbn [length set_nth] in Hx, Hy.
    rewrite (proj2 (Nat.ltb_lt 0 (S (length xs)))) in Hx by lia.
    rewrite (proj2 (Nat.ltb_lt 0 (S (length ys)))) in Hy by lia.
    cbn [bind] in Hx, Hy.
    assert (Hsx : Forall canonical (sbox (M31.add x0 rc) :: xs))
      by (constructor; [apply mod_P_canonical | exact Hxs]).
    assert (Hsy : Forall canonical (sbox (M31.add y0 rc) :: ys))
      by (constructor; [apply mod_P_canonical | exact Hys]).
    simpl length in Hlx, Hly, HN.
    rewrite permute_mut_formula in Hx
      by (try apply Forall_canonical_value_bound; simpl; auto).
    rewrite permute_mut_formula in Hy
      by (try apply Forall_canonical_value_bound; simpl; auto; lia).
    cbn [bind] in Hx, Hy.
    apply bind_ok in Hx as [[ox cx'] [Hrx Hx]].
    apply bind_ok in Hy as [[oy cy'] [Hry Hy]].
    cbn [fst snd] in Hx, Hy. injection Hx as -> _. injection Hy as -> _.
    assert (Hd : diffusion_formula (sbox (M31.add x0 rc) :: xs) shifts
                 = diffusion_formula (sbox (M31.add y0 rc) :: ys) shifts).
    { apply (IH _ _ cx' cy'); auto;
        try (rewrite length_diffusion_formula; simpl; auto; lia);
        apply canonical_diffusion_formula. }
    apply diffusion_formula_injective in Hd; auto; try (simpl; lia).
    injection Hd as Hs ->. f_equal. apply (sbox_add_injective _ _ rc); auto.
Qed.

(** ** The generic layer over any commutative ring *)

Section GenericRing.
Context {R : Type} {RI : PrimeCharacteristicRing R}.
Variables (r_one : R) (r_mul : R -> R -> R) (r_opp : R -> R).
Hypothesis Rth : ring_theory r_zero r_one r_add r_mul r_sub r_opp (@eq R).
Hypothesis double_add : forall x, r_double x = r_add x x.
Hypothesis mul_2exp_0 : forall x, r_mul_2exp_u64 x 0 = x.
Hypothesis mul_2exp_1 : forall x, r_mul_2exp_u64 x 1 = r_double x.
Add Ring generic_ring : Rth.

Lemma fold_left_r_add l a : fold_left r_add l a = r_add a (r_sum l).
Proof.
  unfold r_sum. revert a. induction l as [|x l IH]; intros a; simpl; [ring|].
  rewrite IH, (IH (r_add r_zero x)). ring.
Qed.

(** X2: over any commutative ring in which [double] adds an element to itself
    and [mul_2exp_u64] by 0 and by 1 multiply by 1 and by 2, the generic layer
    with a shift table starting [0; 1] (as both tables do) sets entry 0 to
    sum - 2 * state[0] and entry i >= 1 to sum + state[i] * 2^shifts[i-1]
    (through [mul_2exp_u64]): its hard-coded first entries agree with the
    table. *)
Theorem internal_linear_layer_ring_formula x0 xs shs :
  length xs = S (S (length shs)) ->
  internal_linear_layer (0 :: 1 :: shs) (x0 :: xs)
  = r_sub (r_sum (x0 :: xs)) (r_double x0)
    :: map (fun p => r_add (r_sum (x0 :: xs)) (r_mul_2exp_u64 (fst p) (snd p)))
           (combine xs (0 :: 1 :: shs)).
Proof.
  intros Hlen. destruct xs as [|x1 [|x2 rest]]; simpl in Hlen; try discriminate.
  injection Hlen as Hlen.
  assert (HS : r_sum (x0 :: x1 :: x2 :: rest) = r_add (r_sum (x1 :: x2 :: rest)) x0).
  { change (fold_left r_add (x1 :: x2 :: rest) (r_add r_zero x0)
            = r_add (r_sum (x1 :: x2 :: rest)) x0).
    rewrite fold_left_r_add. ring. }
  rewrite HS. unfold internal_linear_layer. cbv zeta.
  cbn [zip_skip_update Nat.pred combine map fst snd].
  rewrite zip_skip_update_0 by exact Hlen. rewrite mul_2exp_0, mul_2exp_1.
  f_equal. rewrite double_add. ring.
Qed.

End GenericRing.

Lemma internal_linear_layer_ring_formula_witness :
  @internal_linear_layer Z Z_ring [0; 1; 5] [3; 1; 4; 1]
  = @r_sub Z Z_ring (@r_sum Z Z_ring [3; 1; 4; 1]) (@r_double Z Z_ring 3)
    :: map (fun p => @r_add Z Z_ring (@r_sum Z Z_ring [3; 1; 4; 1])
                      (@r_mul_2exp_u64 Z Z_ring (fst p) (snd p)))
           (combine [1; 4; 1] [0; 1; 5]).
Proof.
  apply (internal_linear_layer_ring_formula (RI := Z_ring) 1 Z.mul Z.opp);
    [exact InitialRing.Zth | intros x; change (2 * x = x + x); lia
    | intros x; reflexivity | intros x; reflexivity | reflexivity].
Defined.

(** ** The diffusion and the internal layer are injective *)

Lemma tables_facts shifts :
  shifts = POSEIDON2_INTERNAL_MATRIX_DIAG_16_SHIFTS
  \/ shifts = POSEIDON2_INTERNAL_MATRIX_DIAG_24_SHIFTS ->
  Forall shift_bound shifts /\ ~ (P | det_factor shifts) /\ (length shifts <= 23)%nat.
Proof.
  destruct det_factor_tables as [D16 D24].
  intros [-> | ->]; (split; [concrete_bounds | split; [assumption | simpl; lia]]).
Qed.

(** X1: with either shift table, [permute_mut] is injective on states of
    canonical elements of the matching width: two states it maps to the same
    output are equal, so the matrix 1 + Diag(V) is invertible modulo p and
    the diffusion permutes the state space. *)
Theorem permute_mut_injective shifts x y out :
  shifts = POSEIDON2_INTERNAL_MATRIX_DIAG_16_SHIFTS
  \/ shifts = POSEIDON2_INTERNAL_MATRIX_DIAG_24_SHIFTS ->
  Forall canonical x -> Forall canonical y ->
  length x = (length shifts + 1)%nat -> length y = (length shifts + 1)%nat ->
  permute_mut x shifts = Ok out -> permute_mut y shifts = Ok out -> x = y.
Proof.
  intros Hs Hcx Hcy Hlx Hly Hx Hy.
  destruct (tables_facts shifts Hs) as [Hsh [Hdet Hlen]].
  rewrite Nat.add_1_r in Hlx, Hly.
  rewrite permute_mut_formula in Hx, Hy
    by (try apply Forall_canonical_value_bound; auto; lia).
  injection Hx as Hx. injection Hy as Hy.
  apply (diffusion_formula_injective shifts); auto. congruence.
Qed.

Lemma permute_mut_injective_witness :
  test_input_24 = test_input_24.
Proof.
  apply (permute_mut_injective POSEIDON2_INTERNAL_MATRIX_DIAG_24_SHIFTS
           test_input_24 test_input_24
           (diffusion_formula test_input_24 POSEIDON2_INTERNAL_MATRIX_DIAG_24_SHIFTS));
    [right; reflexivity | concrete_bounds | concrete_bounds | reflexivity | reflexivity
    | vm_compute; reflexivity | vm_compute; reflexivity].
Defined.

(** X3: for any internal constants, the internal layer of width 16 (resp.
    24), when it returns, maps a state of 16 (resp. 24) canonical elements to
    a state of 16 (resp. 24) canonical elements. *)
Theorem internal_layer_keeps_canonical self state out used :
  Forall canonical state ->
  (length state = 16%nat -> permute_state_16 self state = Ok (out, used) ->
   Forall canonical out /\ length out = 16%nat)
  /\ (length state = 24%nat -> permute_state_24 self state = Ok (out, used) ->
      Forall canonical out /\ length out = 24%nat).
Proof.
  intros Hc. destruct shift_tables_bound as [H16 H24]. split; intros Hl Hrun.
  - destruct (internal_permute_state_runs POSEIDON2_INTERNAL_MATRIX_DIAG_16_SHIFTS
                (internal_constants self) state H16) as [o [Ho [Hco Hlo]]];
      [rewrite Hl; reflexivity | rewrite Hl; simpl; lia | exact Hc |].
    unfold permute_state_16 in Hrun. rewrite Ho in Hrun.
    injection Hrun as -> _. split; congruence.
  - destruct (internal_permute_state_runs POSEIDON2_INTERNAL_MATRIX_DIAG_24_SHIFTS
                (internal_constants self) state H24) as [o [Ho [Hco Hlo]]];
      [rewrite Hl; reflexivity | rewrite Hl; simpl; lia | exact Hc |].
    unfold permute_state_24 in Hrun. rewrite Ho in Hrun.
    injection Hrun as -> _. split; congruence.
Qed.

Lemma internal_layer_keeps_canonical_witness :
  exists out used,
    permute_state_16 (internal_layer default_mersenne31_poseidon2_16) test_input_16
    = Ok (out, used) /\ Forall canonical out /\ length out = 16%nat.
Proof.
  assert (Hc : Forall canonical test_input_16) by concrete_bounds.
  destruct (permute_state_16 (internal_layer default_mersenne31_poseidon2_16) test_input_16)
    as [[o u]|e] eqn:E.
  - exists o, u. split; [reflexivity|].
    exact (proj1 (internal_layer_keeps_canonical _ test_input_16 o u Hc) eq_refl E).
  - vm_compute in E. discriminate.
Defined.

(** X4: for any internal constants, the internal layer of width 16 (resp.
    24) is injective on states of canonical elements: two such states it maps
    to the same output are equal. *)
Theorem internal_layer_injective self x y out ux uy :
  Forall canonical x -> Forall canonical y ->
  (length x = 16%nat -> length y = 16%nat ->
   permute_state_16 self x = Ok (out, ux) -> permute_state_16 self y = Ok (out, uy) ->
   x = y)
  /\ (length x = 24%nat -> length y = 24%nat ->
      permute_state_24 self x = Ok (out, ux) -> permute_state_24 self y = Ok (out, uy) ->
      x = y).
Proof.
  intros Hcx Hcy. split; intros Hlx Hly Hx Hy.
  - destruct (tables_facts POSEIDON2_INTERNAL_MATRIX_DIAG_16_SHIFTS (or_introl eq_refl))
      as [Hsh [Hdet _]].
    apply (internal_permute_state_injective _ (internal_constants self) x y out ux uy
             Hsh Hdet); auto;
      first [rewrite Hlx; reflexivity | rewrite Hly; reflexivity
            | rewrite Hlx; simpl; lia].
  - destruct (tables_facts POSEIDON2_INTERNAL_MATRIX_DIAG_24_SHIFTS (or_intror eq_refl))
      as [Hsh [Hdet _]].
    apply (internal_permute_state_injective _ (internal_constants self) x y out ux uy
             Hsh Hdet); auto;
      first [rewrite Hlx; reflexivity | rewrite Hly; reflexivity
            | rewrite Hlx; simpl; lia].
Qed.

Lemma internal_layer_injective_witness :
  exists out u,
    permute_state_24 (internal_layer default_mersenne31_poseidon2_24) test_input_24
    = Ok (out, u) /\ test_input_24 = test_input_24.
Proof.
  assert (Hc : Forall canonical test_input_24) by concrete_bounds.
  destruct (permute_state_24 (internal_layer default_mersenne31_poseidon2_24) test_input_24)
    as [[o u]|e] eqn:E.
  - exists o, u. split; [reflexivity|].
    exact (proj2 (internal_layer_injective _ test_input_24 test_input_24 o u u Hc Hc)
             eq_refl eq_refl E E).
  - vm_compute in E. discriminate.
Defined.

(** X5: on an empty state [permute_mut] always fails its debug assertion,
    whatever the shift list; on a single canonical element with an empty
    shift list it replaces the element by its negation. *)
Theorem permute_mut_width_0_and_1 shifts x :
  canonical x ->
  permute_mut [] shifts = Err DebugAssertEqFailed
  /\ permute_mut [x] [] = Ok [M31.neg x].
Proof.
  intros Hx. split.
  - unfold permute_mut. cbv zeta.
    destruct (Nat.eqb_spec (length shifts + 1) (length (@nil Z))); [simpl in *; lia|].
    reflexivity.
  - rewrite permute_mut_formula
      by (repeat constructor; try apply canonical_value_bound; auto; simpl; lia).
    unfold diffusion_formula, z_sum, M31.neg. cbn [fold_right map combine]. f_equal. f_equal.
    unfold canonical in Hx.
    destruct (Z.eqb_spec x 0) as [->|Hnz]; [reflexivity|].
    symmetry. apply (Z.mod_unique _ _ (-1)); [left; unfold P in *; lia | ring].
Qed.

Lemma permute_mut_width_0_and_1_witness :
  permute_mut [] [3] = Err DebugAssertEqFailed /\ permute_mut [5] [] = Ok [M31.neg 5].
Proof.
  apply permute_mut_width_0_and_1. unfold canonical, P. lia.
Defined.
